(** * DestinationsPlugin: the stateful random-destination picker

    A shallow embedding of the class [DestinationsPlugin] of
    [step5A_chat_completion_agent_plugin_with_kernel.py] and the
    properties of its single operation [get_random_destination].

    Python lists are mutable objects: the embedding keeps them in a store
    indexed by locations, so that [list.copy] allocates a new object and
    [list.remove] updates one object in place.  The class is embedded
    twice: with the number drawn by [random.choice] as an explicit
    argument of the call, and with the generator of [random] as part of
    the state, the second on top of the first. *)

From stdpp Require Import base option list gmap strings.
From Stdlib Require Import Lia.

(** ** Python values and effects *)

(** The two built-in exceptions the operation can raise:
    [list.remove] raises [ValueError] when the value is absent,
    [random.choice] raises [IndexError] on an empty sequence. *)
Inductive exn : Type :=
  | ValueError
  | IndexError.

Inductive outcome (A : Type) : Type :=
  | Ret (a : A)
  | Raise (e : exn).
Arguments Ret {A} a.
Arguments Raise {A} e.

(** Locations of list objects. *)
Abbreviation loc := positive.

(** The attributes of a [DestinationsPlugin] instance:
    [self.destinations] refers to a list object,
    [self.last_destination] is [None] or a string. *)
Record DestinationsPlugin : Type := Plugin {
  destinations : loc;
  last_destination : option string
}.

(** The list objects alive, and the instance the method is called on. *)
Record world : Type := World {
  store : gmap loc (list string);
  self : DestinationsPlugin
}.

(** Computations that read and update the world and may raise.  As in
    Python, the updates made before an exception is raised persist. *)
Definition Py (A : Type) : Type := world → outcome A * world.

Definition py_ret {A} (a : A) : Py A := λ w, (Ret a, w).

Definition py_bind {A B} (m : Py A) (k : A → Py B) : Py B :=
  λ w, match m w with
       | (Ret a, w') => k a w'
       | (Raise e, w') => (Raise e, w')
       end.

Definition py_raise {A} (e : exn) : Py A := λ w, (Raise e, w).

#[global] Instance py_mret : MRet Py := @py_ret.
#[global] Instance py_mbind : MBind Py := λ A B k m, py_bind m k.

(** Python truthiness of an optional string: [None] and the empty string
    are false. *)
Definition truthy (v : option string) : bool :=
  match v with
  | None => false
  | Some s => negb (String.eqb s "")
  end.

(** The content of the list object at [l].  A location outside the store
    reads as the empty list; the worlds built by the constructor never
    hold such a location. *)
Definition list_at (l : loc) (w : world) : list string :=
  default [] (store w !! l).

Definition set_list (l : loc) (xs : list string) (w : world) : world :=
  World (<[l := xs]> (store w)) (self w).

(** [self.destinations] *)
Definition get_destinations : Py loc :=
  λ w, (Ret (destinations (self w)), w).

(** [self.last_destination] *)
Definition get_last_destination : Py (option string) :=
  λ w, (Ret (last_destination (self w)), w).

(** [self.last_destination = v] *)
Definition set_last_destination (v : option string) : Py unit :=
  λ w, (Ret tt, World (store w) (Plugin (destinations (self w)) v)).

(** Reading a list object. *)
Definition list_read (l : loc) : Py (list string) :=
  λ w, (Ret (list_at l w), w).

(** [l.copy()]: a new list object with the same elements. *)
Definition list_copy (l : loc) : Py loc :=
  λ w, let l' := fresh (dom (store w)) in
       (Ret l', set_list l' (list_at l w) w).

(** [len(l)] *)
Definition list_len (l : loc) : Py nat :=
  λ w, (Ret (length (list_at l w)), w).

(** The elements of [xs] without the first occurrence of [x]; [None] when
    [x] does not occur. *)
Fixpoint remove_first (x : string) (xs : list string) : option (list string) :=
  match xs with
  | [] => None
  | y :: ys =>
      if decide (y = x) then Some ys
      else match remove_first x ys with
           | Some ys' => Some (y :: ys')
           | None => None
           end
  end.

(** [l.remove(x)]: removes the first occurrence of [x] from the list
    object in place; [ValueError] when there is none. *)
Definition list_remove (l : loc) (x : string) : Py unit :=
  λ w, match remove_first x (list_at l w) with
       | Some xs' => (Ret tt, set_list l xs' w)
       | None => (Raise ValueError, w)
       end.

(** [random.choice(seq)]: [IndexError] on an empty sequence, otherwise
    [seq[randbelow(len(seq))]].  The number [r] stands for the generator's
    draw, reduced below [len(seq)]. *)
Definition random_choice (r : nat) (seq : list string) : Py string :=
  match seq with
  | [] => py_raise IndexError
  | x :: _ => mret (nth (r mod length seq) seq x)
  end.

(** ** The class *)

(** The list literal of [__init__]. *)
Definition builtin_destinations : list string :=
  [ "Barcelona, Spain";
    "Paris, France";
    "Berlin, Germany";
    "Tokyo, Japan";
    "Sydney, Australia";
    "New York, USA";
    "Cairo, Egypt";
    "Cape Town, South Africa";
    "Rio de Janeiro, Brazil";
    "Bali, Indonesia" ].

(** [__init__], with the list literal it assigns taken as the argument
    [catalog]: the literal is evaluated to a new list object in the store
    [h], the two attributes are assigned.  Neither statement can raise. *)
Definition init (catalog : list string) (h : gmap loc (list string))
  : outcome world :=
  let l := fresh (dom h) in
  Ret (World (<[l := catalog]> h) (Plugin l None)).

(** [DestinationsPlugin()] as the source has it. *)
Definition DestinationsPlugin_new (h : gmap loc (list string)) : outcome world :=
  init builtin_destinations h.

(** Lines 57-59 of [get_random_destination]: the list object passed to
    [random.choice]. *)
Definition available_destinations : Py loc :=
  ds ← get_destinations;
  available ← list_copy ds;
  last ← get_last_destination;
  n ← list_len available;
  match last with
  | Some s =>
      if truthy last && (1 <? n)%nat then list_remove available s else mret tt
  | None => mret tt
  end;;
  mret available.

(** [get_random_destination] *)
Definition get_random_destination (r : nat) : Py string :=
  available ← available_destinations;
  seq ← list_read available;
  destination ← random_choice r seq;
  set_last_destination (Some destination);;
  mret destination.

(** A sequence of calls on the same instance, one draw per call; the
    sequence stops at the first call that raises. *)
Fixpoint calls (rs : list nat) : Py (list string) :=
  match rs with
  | [] => mret []
  | r :: rs' =>
      d ← get_random_destination r;
      ds ← calls rs';
      mret (d :: ds)
  end.

(** The catalog of an instance: the content of [self.destinations]. *)
Definition catalog (w : world) : list string :=
  list_at (destinations (self w)) w.

(** The worlds reachable from the construction of an instance over
    [c] by calls of [get_random_destination], whatever their outcome. *)
Inductive reachable (c : list string) : world → Prop :=
  | reach_init h w :
      init c h = Ret w → reachable c w
  | reach_call w r :
      reachable c w → reachable c (get_random_destination r w).2.

(** The list [get_random_destination] draws from, as a function of the
    catalog and of [self.last_destination]: [None] when [list.remove]
    raises. *)
Definition eligible (c : list string) (last : option string)
  : option (list string) :=
  match last with
  | Some s => if truthy last && (1 <? length c)%nat then remove_first s c else Some c
  | None => Some c
  end.

(** [self.last_destination] is [None] or an entry of [c]. *)
Definition last_in_catalog (c : list string) (w : world) : Prop :=
  ∀ d, last_destination (self w) = Some d → d ∈ c.

(** The eligible set as the design document words it: the catalog minus
    the last pick when a last pick is set and the catalog has more than
    one entry, the full catalog otherwise. *)
Definition eligible_spec (c : list string) (last : option string)
  : list string :=
  match last with
  | Some s => if (1 <? length c)%nat then filter (λ y, y ≠ s) c else c
  | None => c
  end.

(** The list object lines 57-59 hand to [random.choice] holds exactly the
    entries of [eligible_spec], in every world reachable over [c]. *)
Definition draws_from_eligible_spec (c : list string) : Prop :=
  ∀ w, reachable c w →
    ∃ l w1, available_destinations w = (Ret l, w1) ∧
      ∀ d, d ∈ list_at l w1 ↔ d ∈ eligible_spec c (last_destination (self w)).

(** The eligible list with the guard of line 58 as the code has it:
    the last pick is left out only when it is a non-empty string. *)
Definition eligible_truthy (c : list string) (last : option string)
  : list string :=
  match last with
  | Some s =>
      if truthy last && (1 <? length c)%nat then filter (λ y, y ≠ s) c else c
  | None => c
  end.

(** Two calls in a row never return the same value, in every world
    reachable over [c]. *)
Definition no_immediate_repeat (c : list string) : Prop :=
  ∀ w r1 r2 d1 d2, reachable c w →
    (get_random_destination r1 w).1 = Ret d1 →
    (get_random_destination r2 (get_random_destination r1 w).2).1 = Ret d2 →
    d1 ≠ d2.

(** ** The generator of [random]

    [random.choice] draws from the generator shared by the whole module
    [random].  What the program can observe of it is the numbers it is
    still to produce and how many it has produced. *)
Record generator : Type := Generator {
  draw : nat → nat;
  position : nat
}.

Definition next_draw (g : generator) : nat := draw g (position g).

Definition advance (g : generator) : generator :=
  Generator (draw g) (S (position g)).

(** The state of the running program: the generator and the world. *)
Record process : Type := Process {
  rng : generator;
  instance : world
}.

Definition PyR (A : Type) : Type := process → outcome A * process.

#[global] Instance pyr_mret : MRet PyR := λ A a σ, (Ret a, σ).
#[global] Instance pyr_mbind : MBind PyR :=
  λ A B k m σ, match m σ with
               | (Ret a, σ') => k a σ'
               | (Raise e, σ') => (Raise e, σ')
               end.

(** A computation on the world leaves the generator alone. *)
Definition lift {A} (m : Py A) : PyR A :=
  λ σ, match m (instance σ) with
       | (o, w') => (o, Process (rng σ) w')
       end.

(** [random._randbelow(n)] for [n > 0]: the next number of the generator,
    below [n].  One number stands for the bits the call takes from the
    generator. *)
Definition randbelow (n : nat) : PyR nat :=
  λ σ, (Ret (next_draw (rng σ) mod n),
        Process (advance (rng σ)) (instance σ)).

(** [random.choice(seq)] on the shared generator: [IndexError] on an empty
    sequence, before any number is drawn. *)
Definition random_choice_shared (seq : list string) : PyR string :=
  match seq with
  | [] => λ σ, (Raise IndexError, σ)
  | x :: _ => i ← randbelow (length seq); mret (nth i seq x)
  end.

(** [get_random_destination], with the generator as part of the state. *)
Definition get_random_destination_shared : PyR string :=
  available ← lift available_destinations;
  seq ← lift (list_read available);
  destination ← random_choice_shared seq;
  lift (set_last_destination (Some destination));;
  mret destination.

(** A call changes nothing that can be observed but
    [self.last_destination]: the generator, the attribute
    [self.destinations], the catalog and the list objects of the store
    are as before. *)
Definition mutates_only_last_destination : Prop :=
  ∀ σ : process,
    rng (get_random_destination_shared σ).2 = rng σ ∧
    destinations (self (instance (get_random_destination_shared σ).2))
      = destinations (self (instance σ)) ∧
    catalog (instance (get_random_destination_shared σ).2)
      = catalog (instance σ) ∧
    store (instance σ) ⊆ store (instance (get_random_destination_shared σ).2).

(** The world after [DestinationsPlugin()] in an empty store. *)
Definition fresh_world (c : list string) : world :=
  World {[1%positive := c]} (Plugin 1%positive None).

(** No two neighbours in the list are equal. *)
Fixpoint adjacent_distinct (ds : list string) : Prop :=
  match ds with
  | [] => True
  | d :: ds' => head ds' ≠ Some d ∧ adjacent_distinct ds'
  end.

(** The position in a list of the entry that comes [i]-th once the entry
    at position [j] is taken out. *)
Definition skip_index (j i : nat) : nat :=
  if (i <? j)%nat then i else S i.

(** ** Facts about the list operations *)

Section remove_first_facts.
Implicit Types (x y : string) (xs ys : list string).

Lemma remove_first_elem x xs ys :
  remove_first x xs = Some ys → x ∈ xs.
Proof.
  revert ys. induction xs as [|y xs IH]; intros ys; simpl; [done|].
  case_decide as Hxy; [subst; intros _; left|].
  destruct (remove_first x xs) eqn:E; [|done].
  intros _. right. by eapply IH.
Qed.

Lemma remove_first_is_Some x xs :
  x ∈ xs → is_Some (remove_first x xs).
Proof.
  induction xs as [|y xs IH]; simpl.
  - by intros ?%elem_of_nil.
  - intros Hin. case_decide as Hxy; [by eexists|].
    apply elem_of_cons in Hin as [->|Hin]; [done|].
    destruct (IH Hin) as [ys ->]. by eexists.
Qed.

Lemma remove_first_None x xs :
  remove_first x xs = None ↔ x ∉ xs.
Proof.
  split.
  - intros HN Hin. apply remove_first_is_Some in Hin as [ys Hys]. congruence.
  - intros Hnin. destruct (remove_first x xs) eqn:E; [|done].
    by apply remove_first_elem in E.
Qed.

Lemma remove_first_length x xs ys :
  remove_first x xs = Some ys → length xs = S (length ys).
Proof.
  revert ys. induction xs as [|y xs IH]; intros ys; simpl; [done|].
  case_decide; [by intros [= ->]|].
  destruct (remove_first x xs) eqn:E; [|done].
  intros [= <-]. simpl. f_equal. by apply IH.
Qed.

Lemma remove_first_subseteq x xs ys :
  remove_first x xs = Some ys → ys ⊆ xs.
Proof.
  revert ys. induction xs as [|y xs IH]; intros ys; simpl; [done|].
  case_decide; [intros [= ->] z Hz; by right|].
  destruct (remove_first x xs) eqn:E; [|done].
  intros [= <-] z [->|Hz]%elem_of_cons; [by left|].
  right. by apply (IH _ eq_refl).
Qed.

Lemma filter_other_id x xs :
  x ∉ xs → filter (λ y, y ≠ x) xs = xs.
Proof.
  induction xs as [|y xs IH]; [done|].
  intros [Hne Hnin]%not_elem_of_cons.
  rewrite filter_cons_True; [|done]. by rewrite IH.
Qed.

(** On a list without duplicates, removing the first occurrence removes
    the value. *)
Lemma remove_first_NoDup x xs ys :
  NoDup xs → remove_first x xs = Some ys →
  ys = filter (λ y, y ≠ x) xs ∧ x ∉ ys.
Proof.
  intros Hnd. revert ys.
  induction Hnd as [|y xs Hy Hnd IH]; intros ys; simpl; [done|].
  case_decide as Hxy.
  - subst y. intros [= ->]. rewrite filter_cons_False; [|by intros Hne; apply Hne].
    by rewrite filter_other_id.
  - destruct (remove_first x xs) eqn:E; [|done].
    intros [= <-]. pose proof (IH _ eq_refl) as [Heq Hnin].
    rewrite filter_cons_True; [|done]. split; [by f_equal|].
    by apply not_elem_of_cons.
Qed.
End remove_first_facts.

Lemma nth_mod_elem (r : nat) (x : string) (xs : list string) :
  nth (r mod length (x :: xs)) (x :: xs) x ∈ x :: xs.
Proof.
  apply list_elem_of_In, nth_In.
  apply Nat.mod_upper_bound. simpl; lia.
Qed.

(** Every position of a non-empty sequence is the choice of some draw. *)
Lemma nth_mod_any (d x : string) (xs : list string) :
  d ∈ x :: xs → ∃ r, nth (r mod length (x :: xs)) (x :: xs) x = d.
Proof.
  intros Hin. apply list_elem_of_lookup in Hin as [i Hi].
  exists i. pose proof (lookup_lt_Some _ _ _ Hi) as Hlt.
  rewrite Nat.mod_small; [|done].
  by apply nth_lookup_Some with (d := x) in Hi.
Qed.

(** ** One call, as a function of the catalog and the last pick *)

Section one_call.
Implicit Types (w : world) (l : loc) (xs : list string).

Lemma list_at_set_list_eq l xs w : list_at l (set_list l xs w) = xs.
Proof. unfold list_at, set_list; simpl. by rewrite lookup_insert_eq. Qed.

Lemma list_at_set_list_ne l l' xs w :
  l ≠ l' → list_at l' (set_list l xs w) = list_at l' w.
Proof. intros ?. unfold list_at, set_list; simpl. by rewrite lookup_insert_ne. Qed.

Lemma set_list_set_list l xs ys w :
  set_list l ys (set_list l xs w) = set_list l ys w.
Proof. unfold set_list; simpl. by rewrite insert_insert_eq. Qed.

Lemma fresh_store_None w : store w !! fresh (dom (store w)) = None.
Proof. apply not_elem_of_dom, is_fresh. Qed.

Lemma fresh_store_ne w l xs :
  store w !! l = Some xs → fresh (dom (store w)) ≠ l.
Proof. intros Hl Heq. rewrite <- Heq, fresh_store_None in Hl. done. Qed.

(** Lines 57-59 leave the list [eligible] in a new object, or raise
    [ValueError] with the plain copy left in it. *)
Lemma available_destinations_eq w :
  available_destinations w =
    let l := fresh (dom (store w)) in
    match eligible (catalog w) (last_destination (self w)) with
    | Some xs => (Ret l, set_list l xs w)
    | None => (Raise ValueError, set_list l (catalog w) w)
    end.
Proof.
  unfold available_destinations, eligible, catalog.
  unfold mbind, py_mbind, py_bind, mret, py_mret, py_ret,
    get_destinations, list_copy, get_last_destination, list_len, list_remove.
  cbn beta iota zeta delta [fst snd self store set_list].
  rewrite !list_at_set_list_eq.
  destruct (last_destination (self w)) as [s|]; [|done].
  destruct (truthy (Some s) && (1 <? length (list_at _ w))%nat);
    cbn beta; [|done].
  rewrite list_at_set_list_eq.
  destruct (remove_first s _); [|done].
  by rewrite set_list_set_list.
Qed.

Lemma get_random_destination_eq r w :
  get_random_destination r w =
    let l := fresh (dom (store w)) in
    match eligible (catalog w) (last_destination (self w)) with
    | Some (x :: xs) =>
        let d := nth (r mod length (x :: xs)) (x :: xs) x in
        (Ret d, World (<[l := x :: xs]> (store w))
                      (Plugin (destinations (self w)) (Some d)))
    | Some [] => (Raise IndexError, set_list l [] w)
    | None => (Raise ValueError, set_list l (catalog w) w)
    end.
Proof.
  unfold get_random_destination.
  unfold mbind, py_mbind, py_bind. rewrite available_destinations_eq.
  cbn zeta. destruct (eligible _ _) as [[|x xs]|]; [| |done].
  - unfold list_read. by rewrite list_at_set_list_eq.
  - unfold list_read. by rewrite list_at_set_list_eq.
Qed.

(** The store after a call: the store before it and one new object. *)
Lemma get_random_destination_store r w :
  ∃ ys, store (get_random_destination r w).2
        = <[fresh (dom (store w)) := ys]> (store w).
Proof.
  rewrite get_random_destination_eq. cbn zeta.
  destruct (eligible _ _) as [[|x xs]|]; by eexists.
Qed.

Lemma get_random_destination_destinations r w :
  destinations (self (get_random_destination r w).2) = destinations (self w).
Proof.
  rewrite get_random_destination_eq. cbn zeta.
  by destruct (eligible _ _) as [[|x xs]|].
Qed.

Lemma get_random_destination_lookup r w l xs :
  store w !! l = Some xs →
  store (get_random_destination r w).2 !! l = Some xs.
Proof.
  intros Hl. destruct (get_random_destination_store r w) as [ys ->].
  rewrite lookup_insert_ne; [done|]. by eapply fresh_store_ne.
Qed.

Lemma eligible_of_nil last : eligible [] last = Some [].
Proof.
  destruct last as [s|]; [|done]. unfold eligible.
  by rewrite andb_false_r.
Qed.

Lemma get_random_destination_catalog r w :
  catalog (get_random_destination r w).2 = catalog w.
Proof.
  unfold catalog at 1. rewrite get_random_destination_destinations.
  destruct (store w !! destinations (self w)) as [c|] eqn:Hc.
  - unfold list_at.
    rewrite (get_random_destination_lookup r w _ c Hc).
    unfold catalog, list_at. by rewrite Hc.
  - assert (catalog w = []) as Hnil.
    { unfold catalog, list_at. by rewrite Hc. }
    rewrite get_random_destination_eq, Hnil, eligible_of_nil. cbn zeta.
    unfold list_at, set_list; simpl.
    destruct (decide (fresh (dom (store w)) = destinations (self w))) as [->|Hne].
    + by rewrite lookup_insert_eq.
    + by rewrite lookup_insert_ne, Hc.
Qed.
End one_call.

(** ** The list drawn from *)

Section eligible_facts.
Implicit Types (c xs : list string) (last : option string).

Lemma eligible_subseteq c last xs :
  eligible c last = Some xs → xs ⊆ c.
Proof.
  unfold eligible. destruct last as [s|]; [|by intros [= ->]].
  destruct (truthy (Some s) && (1 <? length c)%nat); [|by intros [= ->]].
  apply remove_first_subseteq.
Qed.

Lemma eligible_nonempty c last xs :
  c ≠ [] → eligible c last = Some xs → xs ≠ [].
Proof.
  unfold eligible. intros Hc. destruct last as [s|]; [|by intros [= <-]].
  destruct (truthy (Some s) && (1 <? length c)%nat) eqn:Hg; [|by intros [= <-]].
  apply andb_true_iff in Hg as [_ Hlen%Nat.ltb_lt].
  intros Hrm%remove_first_length ->. simpl in Hrm. lia.
Qed.

Lemma eligible_is_Some c last :
  (∀ d, last = Some d → d ∈ c) → is_Some (eligible c last).
Proof.
  unfold eligible. intros Hin. destruct last as [s|]; [|by eexists].
  destruct (truthy (Some s) && (1 <? length c)%nat); [|by eexists].
  by apply remove_first_is_Some, Hin.
Qed.

Lemma truthy_Some s : truthy (Some s) = bool_decide (s ≠ "").
Proof.
  unfold truthy. destruct (String.eqb_spec s ""); subst.
  - by rewrite bool_decide_eq_false_2; [|intros Hne; apply Hne].
  - by rewrite bool_decide_eq_true_2.
Qed.

(** With the guard of line 58 false, nothing is removed. *)
Lemma eligible_guard_false c last :
  truthy last && (1 <? length c)%nat = false → eligible c last = Some c.
Proof. unfold eligible. destruct last; [|done]. by intros ->. Qed.

(** With the guard true and a catalog without duplicates that holds the
    last pick, the last pick is removed. *)
Lemma eligible_guard_true c s :
  NoDup c → s ∈ c → truthy (Some s) && (1 <? length c)%nat = true →
  eligible c (Some s) = Some (filter (λ y, y ≠ s) c).
Proof.
  intros Hnd Hin Hg. unfold eligible. rewrite Hg.
  destruct (remove_first_is_Some s c Hin) as [ys Hys].
  rewrite Hys. f_equal. by apply (remove_first_NoDup s c ys).
Qed.
End eligible_facts.

(** ** Reachable worlds *)

Section invariant.
Implicit Types (w : world) (c : list string).

Lemma get_random_destination_last r w :
  match (get_random_destination r w).1 with
  | Ret d => last_destination (self (get_random_destination r w).2) = Some d
  | Raise _ => last_destination (self (get_random_destination r w).2)
               = last_destination (self w)
  end.
Proof.
  rewrite get_random_destination_eq. cbn zeta.
  by destruct (eligible _ _) as [[|x xs]|].
Qed.

Lemma get_random_destination_elem r w d :
  (get_random_destination r w).1 = Ret d → d ∈ catalog w.
Proof.
  rewrite get_random_destination_eq. cbn zeta.
  destruct (eligible _ _) as [[|x xs]|] eqn:He; [done| |done].
  simpl. intros [= <-]. eapply eligible_subseteq; [done|].
  apply nth_mod_elem.
Qed.

Lemma reachable_inv c w :
  reachable c w →
  store w !! destinations (self w) = Some c ∧ last_in_catalog c w.
Proof.
  induction 1 as [h w Hinit|w r Hreach [Hst Hlast]].
  - unfold init in Hinit. injection Hinit as <-. simpl.
    split; [by rewrite lookup_insert_eq|]. by intros d.
  - assert (catalog w = c) as Hcat.
    { unfold catalog, list_at. by rewrite Hst. }
    split.
    + rewrite get_random_destination_destinations.
      by apply get_random_destination_lookup.
    + intros d Hd.
      pose proof (get_random_destination_last r w) as Hl.
      pose proof (get_random_destination_elem r w) as He.
      destruct (get_random_destination r w).1 as [d'|e].
      * rewrite Hl in Hd. injection Hd as <-. rewrite <- Hcat. by apply He.
      * rewrite Hl in Hd. by apply Hlast.
Qed.

Lemma reachable_catalog c w : reachable c w → catalog w = c.
Proof.
  intros [Hst _]%reachable_inv. unfold catalog, list_at. by rewrite Hst.
Qed.

(** A call on a reachable world over a non-empty catalog returns. *)
Lemma reachable_call_ret c w r :
  c ≠ [] → reachable c w →
  ∃ x xs, eligible c (last_destination (self w)) = Some (x :: xs) ∧
    (get_random_destination r w).1
      = Ret (nth (r mod length (x :: xs)) (x :: xs) x).
Proof.
  intros Hc Hreach.
  pose proof (reachable_catalog _ _ Hreach) as Hcat.
  destruct (reachable_inv _ _ Hreach) as [_ Hlast].
  destruct (eligible_is_Some c _ Hlast) as [ys Hys].
  pose proof (eligible_nonempty _ _ _ Hc Hys) as Hne.
  destruct ys as [|x xs]; [done|]. exists x, xs. split; [done|].
  rewrite get_random_destination_eq, Hcat, Hys. done.
Qed.
End invariant.

Lemma init_empty_store c : init c ∅ = Ret (fresh_world c).
Proof. reflexivity. Qed.

Lemma reachable_fresh_world c : reachable c (fresh_world c).
Proof. apply (reach_init c ∅). apply init_empty_store. Qed.

(** [DestinationsPlugin()] in an empty store: the instance of the script. *)
Lemma DestinationsPlugin_new_empty_store :
  DestinationsPlugin_new ∅ = Ret (fresh_world builtin_destinations).
Proof. reflexivity. Qed.

(** ** No immediate repeat *)

(** C1: over every catalog of at least two destination names (no
    duplicates, no empty name; the list of [__init__] is one), two calls
    in a row on a constructed instance both return, and the second value
    differs from the first. *)
Theorem consecutive_picks_differ (c : list string) (w : world) (r1 r2 : nat) :
  NoDup c → "" ∉ c → 2 ≤ length c → reachable c w →
  ∃ d1 d2,
    (get_random_destination r1 w).1 = Ret d1 ∧
    (get_random_destination r2 (get_random_destination r1 w).2).1 = Ret d2 ∧
    d1 ≠ d2.
Proof.
  intros Hnd Hempty Hlen Hreach.
  assert (c ≠ []) as Hc by (intros ->; simpl in Hlen; lia).
  destruct (reachable_call_ret c w r1 Hc Hreach) as (x1 & xs1 & _ & Hd1).
  set (d1 := nth (r1 mod length (x1 :: xs1)) (x1 :: xs1) x1) in *.
  set (w1 := (get_random_destination r1 w).2).
  assert (reachable c w1) as Hreach1 by by apply reach_call.
  assert (last_destination (self w1) = Some d1) as Hlast1.
  { pose proof (get_random_destination_last r1 w) as Hl. by rewrite Hd1 in Hl. }
  assert (d1 ∈ c) as Hin1.
  { destruct (reachable_inv _ _ Hreach1) as [_ Hl]. by apply Hl. }
  destruct (reachable_call_ret c w1 r2 Hc Hreach1) as (x2 & xs2 & Hel & Hd2).
  exists d1, (nth (r2 mod length (x2 :: xs2)) (x2 :: xs2) x2).
  split; [done|]. split; [done|].
  rewrite Hlast1, eligible_guard_true in Hel; [|done|done|].
  - injection Hel as Hel.
    assert (nth (r2 mod length (x2 :: xs2)) (x2 :: xs2) x2
            ∈ filter (λ y, y ≠ d1) c) as Hin2.
    { rewrite Hel. apply nth_mod_elem. }
    apply list_elem_of_filter in Hin2 as [Hne _].
    intros Heq. by apply Hne.
  - apply andb_true_iff. split.
    + rewrite truthy_Some. apply bool_decide_eq_true_2. by intros ->.
    + apply Nat.ltb_lt. lia.
Qed.

Lemma consecutive_picks_differ_witness :
  ∃ d1 d2,
    (get_random_destination 7 (fresh_world builtin_destinations)).1 = Ret d1 ∧
    (get_random_destination 7
       (get_random_destination 7 (fresh_world builtin_destinations)).2).1
      = Ret d2 ∧
    d1 ≠ d2.
Proof.
  apply (consecutive_picks_differ builtin_destinations).
  - apply (bool_decide_unpack _). vm_compute. exact I.
  - apply (bool_decide_unpack _). vm_compute. exact I.
  - simpl. lia.
  - apply reachable_fresh_world.
Defined.

(** Only the immediate predecessor is excluded: the third call may return
    what the first one did. *)
Example repeat_two_calls_back :
  (calls [0; 0; 0] (fresh_world builtin_destinations)).1
  = Ret ["Barcelona, Spain"; "Paris, France"; "Barcelona, Spain"].
Proof. vm_compute. reflexivity. Qed.

(** ** Sequences of calls *)

Section sequences.
Implicit Types (w : world) (c : list string) (rs : list nat).

Lemma calls_cons r rs w :
  calls (r :: rs) w =
    match get_random_destination r w with
    | (Ret d, w') =>
        match calls rs w' with
        | (Ret ds, w'') => (Ret (d :: ds), w'')
        | (Raise e, w'') => (Raise e, w'')
        end
    | (Raise e, w') => (Raise e, w')
    end.
Proof. reflexivity. Qed.

Lemma calls_reachable c rs w :
  reachable c w → reachable c (calls rs w).2.
Proof.
  revert w. induction rs as [|r rs IH]; intros w Hreach; [done|].
  rewrite calls_cons.
  pose proof (reach_call c w r Hreach) as Hstep.
  destruct (get_random_destination r w) as [[d|e] w']; simpl in Hstep; [|done].
  specialize (IH w' Hstep).
  by destruct (calls rs w') as [[ds|e] w''].
Qed.

Lemma calls_ret c rs w :
  c ≠ [] → reachable c w →
  ∃ ds, (calls rs w).1 = Ret ds ∧ length ds = length rs ∧
        Forall (λ d, d ∈ c) ds.
Proof.
  intros Hc. revert w. induction rs as [|r rs IH]; intros w Hreach.
  - exists []. by repeat split.
  - rewrite calls_cons.
    destruct (reachable_call_ret c w r Hc Hreach) as (x & xs & _ & Hd).
    pose proof (get_random_destination_elem r w _ Hd) as Hin.
    rewrite (reachable_catalog c w Hreach) in Hin.
    pose proof (reach_call c w r Hreach) as Hstep.
    destruct (get_random_destination r w) as [o w']; simpl in *. subst o.
    destruct (IH w' Hstep) as (ds & Hds & Hlen & Hall).
    destruct (calls rs w') as [o w'']; simpl in *. subst o.
    eexists. split; [done|]. split; [by simpl; f_equal|].
    by constructor.
Qed.
End sequences.

(** C2: from a newly constructed instance over a non-empty catalog, every
    sequence of calls returns, one value per call, and every value
    returned is an entry of the catalog assigned at construction (which
    is still the catalog at the end). *)
Theorem picks_are_catalog_members
    (c : list string) (h : gmap loc (list string)) (w : world) (rs : list nat) :
  c ≠ [] → init c h = Ret w →
  ∃ ds, (calls rs w).1 = Ret ds ∧ length ds = length rs ∧
        Forall (λ d, d ∈ c) ds ∧ catalog (calls rs w).2 = c.
Proof.
  intros Hc Hinit.
  assert (reachable c w) as Hreach by by eapply reach_init.
  destruct (calls_ret c rs w Hc Hreach) as (ds & Hds & Hlen & Hall).
  exists ds. repeat split; [done..|].
  by apply reachable_catalog, calls_reachable.
Qed.

Lemma picks_are_catalog_members_witness :
  ∃ ds, (calls [3; 1; 4; 1; 5] (fresh_world builtin_destinations)).1 = Ret ds ∧
        length ds = 5 ∧
        Forall (λ d, d ∈ builtin_destinations) ds ∧
        catalog (calls [3; 1; 4; 1; 5] (fresh_world builtin_destinations)).2
          = builtin_destinations.
Proof.
  apply (picks_are_catalog_members builtin_destinations ∅).
  - discriminate.
  - reflexivity.
Defined.

(** ** The algorithm of one call *)

(** The list drawn from, with the guard of line 58 as the code has it. *)
Lemma call_draws_from_eligible_truthy (c : list string) (w : world) (r : nat) :
  NoDup c → c ≠ [] → reachable c w →
  (∃ l w1, available_destinations w = (Ret l, w1) ∧
           list_at l w1 = eligible_truthy c (last_destination (self w))) ∧
  ∃ d, d ∈ eligible_truthy c (last_destination (self w)) ∧
       (get_random_destination r w).1 = Ret d ∧
       last_destination (self (get_random_destination r w).2) = Some d.
Proof.
  intros Hnd Hc Hreach.
  pose proof (reachable_catalog c w Hreach) as Hcat.
  destruct (reachable_inv c w Hreach) as [_ Hlast].
  assert (eligible c (last_destination (self w))
          = Some (eligible_truthy c (last_destination (self w)))) as Hel.
  { unfold eligible_truthy.
    destruct (last_destination (self w)) as [s|] eqn:Hs; [|done].
    destruct (truthy (Some s) && (1 <? length c)%nat) eqn:Hg.
    - apply eligible_guard_true; [done| |done]. by apply Hlast.
    - by apply eligible_guard_false. }
  split.
  - rewrite available_destinations_eq, Hcat, Hel. cbn zeta.
    eexists _, _. split; [done|]. apply list_at_set_list_eq.
  - destruct (reachable_call_ret c w r Hc Hreach) as (x & xs & Hel' & Hd).
    exists (nth (r mod length (x :: xs)) (x :: xs) x).
    rewrite Hel in Hel'. injection Hel' as ->.
    split; [apply nth_mod_elem|]. split; [done|].
    pose proof (get_random_destination_last r w) as Hl. by rewrite Hd in Hl.
Qed.

(** A last pick that is a destination name is a non-empty string, and
    then the guard of line 58 is the test "is set". *)
Lemma eligible_truthy_spec (c : list string) (last : option string) :
  "" ∉ c → (∀ s, last = Some s → s ∈ c) →
  eligible_truthy c last = eligible_spec c last.
Proof.
  intros Hempty Hin. unfold eligible_truthy, eligible_spec.
  destruct last as [s|]; [|done].
  rewrite truthy_Some, bool_decide_eq_true_2; [done|].
  intros ->. by apply Hempty, Hin.
Qed.

(** C4: on every instance constructed over a non-empty catalog of
    destination names (no duplicates, no empty name; the list of
    [__init__] is one), the list handed to [random.choice] is the
    eligible set as the design words it: the catalog minus
    [last_destination] when [last_destination] is set and the catalog has
    more than one entry, the full catalog otherwise.  The call returns an
    entry of that list and leaves it in [last_destination]. *)
Theorem call_follows_algorithm (c : list string) (w : world) (r : nat) :
  NoDup c → "" ∉ c → c ≠ [] → reachable c w →
  (∃ l w1, available_destinations w = (Ret l, w1) ∧
           list_at l w1 = eligible_spec c (last_destination (self w))) ∧
  ∃ d, d ∈ eligible_spec c (last_destination (self w)) ∧
       (get_random_destination r w).1 = Ret d ∧
       last_destination (self (get_random_destination r w).2) = Some d.
Proof.
  intros Hnd Hempty Hc Hreach.
  destruct (reachable_inv c w Hreach) as [_ Hlast].
  rewrite <- (eligible_truthy_spec c _ Hempty Hlast).
  by apply call_draws_from_eligible_truthy.
Qed.

Lemma call_follows_algorithm_witness :
  let w := (get_random_destination 4 (fresh_world builtin_destinations)).2 in
  (∃ l w1, available_destinations w = (Ret l, w1) ∧
           list_at l w1
           = eligible_spec builtin_destinations (last_destination (self w))) ∧
  ∃ d, d ∈ eligible_spec builtin_destinations (last_destination (self w)) ∧
       (get_random_destination 9 w).1 = Ret d ∧
       last_destination (self (get_random_destination 9 w).2) = Some d.
Proof.
  apply (call_follows_algorithm builtin_destinations).
  - apply (bool_decide_unpack _). vm_compute. exact I.
  - apply (bool_decide_unpack _). vm_compute. exact I.
  - discriminate.
  - apply reach_call, reachable_fresh_world.
Defined.

(** ** The picker state *)

(** C5: a new instance has no last pick, and every call on an instance
    constructed over a non-empty catalog returns a value and leaves that
    value in [last_destination]; the other attribute, [self.destinations],
    still refers to the same list object with the same content. *)
Theorem last_destination_is_last_pick
    (c : list string) (h : gmap loc (list string)) (w0 w : world) (r : nat) :
  c ≠ [] → init c h = Ret w0 → reachable c w →
  last_destination (self w0) = None ∧
  ∃ d, (get_random_destination r w).1 = Ret d ∧
       last_destination (self (get_random_destination r w).2) = Some d ∧
       destinations (self (get_random_destination r w).2)
         = destinations (self w) ∧
       catalog (get_random_destination r w).2 = catalog w.
Proof.
  intros Hc Hinit Hreach. split.
  - unfold init in Hinit. by injection Hinit as <-.
  - destruct (reachable_call_ret c w r Hc Hreach) as (x & xs & _ & Hd).
    eexists. split; [done|].
    pose proof (get_random_destination_last r w) as Hl. rewrite Hd in Hl.
    split; [done|].
    split; [apply get_random_destination_destinations|].
    apply get_random_destination_catalog.
Qed.

Lemma last_destination_is_last_pick_witness :
  let w := (calls [6; 1] (fresh_world builtin_destinations)).2 in
  last_destination (self (fresh_world builtin_destinations)) = None ∧
  ∃ d, (get_random_destination 3 w).1 = Ret d ∧
       last_destination (self (get_random_destination 3 w).2) = Some d ∧
       destinations (self (get_random_destination 3 w).2)
         = destinations (self w) ∧
       catalog (get_random_destination 3 w).2 = catalog w.
Proof.
  apply (last_destination_is_last_pick builtin_destinations ∅).
  - discriminate.
  - reflexivity.
  - apply calls_reachable, reachable_fresh_world.
Defined.

(** ** Totality *)

(** C6: on every instance reachable over a non-empty catalog, lines 57-59
    complete (the removal, when attempted, finds its value), the list
    handed to [random.choice] is non-empty, and the call returns. *)
Theorem get_random_destination_total (c : list string) (w : world) (r : nat) :
  c ≠ [] → reachable c w →
  ∃ l w1 d, available_destinations w = (Ret l, w1) ∧ list_at l w1 ≠ [] ∧
            (get_random_destination r w).1 = Ret d.
Proof.
  intros Hc Hreach.
  destruct (reachable_call_ret c w r Hc Hreach) as (x & xs & Hel & Hd).
  pose proof (reachable_catalog c w Hreach) as Hcat.
  rewrite available_destinations_eq, Hcat, Hel. cbn zeta.
  eexists _, _, _. split; [done|]. split; [|done].
  by rewrite list_at_set_list_eq.
Qed.

Lemma get_random_destination_total_witness :
  let w := (calls [2; 2; 11] (fresh_world builtin_destinations)).2 in
  ∃ l w1 d, available_destinations w = (Ret l, w1) ∧ list_at l w1 ≠ [] ∧
            (get_random_destination 6 w).1 = Ret d.
Proof.
  apply (get_random_destination_total builtin_destinations).
  - discriminate.
  - apply calls_reachable, reachable_fresh_world.
Defined.

(** ** Frame *)

(** On the world alone: a call, whatever its outcome, leaves
    [self.destinations] referring to the same list object and the catalog
    as it was; every list object of the store keeps its content, and the
    store gains one object, the copy the call worked on. *)
Lemma get_random_destination_world_frame (r : nat) (w : world) :
  destinations (self (get_random_destination r w).2) = destinations (self w) ∧
  catalog (get_random_destination r w).2 = catalog w ∧
  store w ⊆ store (get_random_destination r w).2 ∧
  dom (store (get_random_destination r w).2)
    = {[fresh (dom (store w))]} ∪ dom (store w).
Proof.
  split; [apply get_random_destination_destinations|].
  split; [apply get_random_destination_catalog|].
  destruct (get_random_destination_store r w) as [ys ->].
  split; [|apply dom_insert_L].
  apply insert_subseteq, fresh_store_None.
Qed.

(** With the generator in the state, a call acts on the world as
    [get_random_destination] does with the generator's next number, and
    it advances the generator when it returns: both exceptions are raised
    before a number is drawn. *)
Lemma get_random_destination_shared_eq (σ : process) :
  get_random_destination_shared σ =
    match get_random_destination (next_draw (rng σ)) (instance σ) with
    | (Ret d, w') => (Ret d, Process (advance (rng σ)) w')
    | (Raise e, w') => (Raise e, Process (rng σ) w')
    end.
Proof.
  unfold get_random_destination_shared, get_random_destination.
  unfold mbind, pyr_mbind, py_mbind, py_bind, lift.
  destruct (available_destinations (instance σ)) as [[l|e] w1]; [|done].
  unfold list_read. cbn beta iota delta [instance rng].
  unfold random_choice_shared, random_choice.
  by destruct (list_at l w1) as [|x xs].
Qed.

(** C7, as stated, fails: a call on a new instance, as the script
    constructs it, leaves the generator of [random] one number further. *)
Lemma generator_is_advanced : ¬ mutates_only_last_destination.
Proof.
  intros Hclaim.
  destruct (Hclaim (Process (Generator (λ n, n) 0)
                            (fresh_world builtin_destinations)))
    as [Hrng _].
  apply (f_equal position) in Hrng. vm_compute in Hrng. discriminate Hrng.
Qed.

(** C7 (amended): a call on an instance constructed over a non-empty
    catalog returns, sets [last_destination] to the value returned, and
    advances the shared generator of [random] by the number it draws.
    Nothing else changes: [self.destinations] refers to the same list
    object, the catalog has the same entries in the same order, every
    list object of the store keeps its content, and the store only gains
    the copy the call worked on. *)
Theorem get_random_destination_frame (c : list string) (σ : process) :
  c ≠ [] → reachable c (instance σ) →
  (∃ d, (get_random_destination_shared σ).1 = Ret d ∧
        last_destination (self (instance (get_random_destination_shared σ).2))
          = Some d) ∧
  rng (get_random_destination_shared σ).2 = advance (rng σ) ∧
  destinations (self (instance (get_random_destination_shared σ).2))
    = destinations (self (instance σ)) ∧
  catalog (instance (get_random_destination_shared σ).2) = c ∧
  store (instance σ) ⊆ store (instance (get_random_destination_shared σ).2) ∧
  dom (store (instance (get_random_destination_shared σ).2))
    = {[fresh (dom (store (instance σ)))]} ∪ dom (store (instance σ)).
Proof.
  intros Hc Hreach.
  set (r := next_draw (rng σ)).
  destruct (reachable_call_ret c (instance σ) r Hc Hreach)
    as (x & xs & _ & Hd).
  pose proof (get_random_destination_last r (instance σ)) as Hl.
  rewrite Hd in Hl.
  destruct (get_random_destination_world_frame r (instance σ))
    as (Hdst & Hcat & Hsub & Hdom).
  rewrite (reachable_catalog c _ Hreach) in Hcat.
  rewrite get_random_destination_shared_eq. fold r.
  destruct (get_random_destination r (instance σ)) as [o w']; simpl in *.
  subst o. simpl. split; [by eexists|]. done.
Qed.

Lemma get_random_destination_frame_witness :
  let σ := Process (Generator (λ n, 7 * n + 3) 0)
             (calls [2; 5] (fresh_world builtin_destinations)).2 in
  (∃ d, (get_random_destination_shared σ).1 = Ret d ∧
        last_destination (self (instance (get_random_destination_shared σ).2))
          = Some d) ∧
  rng (get_random_destination_shared σ).2 = advance (rng σ) ∧
  destinations (self (instance (get_random_destination_shared σ).2))
    = destinations (self (instance σ)) ∧
  catalog (instance (get_random_destination_shared σ).2)
    = builtin_destinations ∧
  store (instance σ) ⊆ store (instance (get_random_destination_shared σ).2) ∧
  dom (store (instance (get_random_destination_shared σ).2))
    = {[fresh (dom (store (instance σ)))]} ∪ dom (store (instance σ)).
Proof.
  apply (get_random_destination_frame builtin_destinations).
  - discriminate.
  - apply calls_reachable, reachable_fresh_world.
Defined.

(** ** The invariant behind the removal *)

(** C9: in every world reachable from construction over [c], the catalog
    is [c], [last_destination] is [None] or an entry of [c], and lines
    57-59 do not raise the [ValueError] of [list.remove]. *)
Theorem last_destination_in_catalog (c : list string) (w : world) :
  reachable c w →
  catalog w = c ∧
  (last_destination (self w) = None ∨
   ∃ d, last_destination (self w) = Some d ∧ d ∈ c) ∧
  (available_destinations w).1 ≠ Raise ValueError.
Proof.
  intros Hreach.
  pose proof (reachable_catalog c w Hreach) as Hcat.
  destruct (reachable_inv c w Hreach) as [_ Hlast].
  split; [done|]. split.
  - destruct (last_destination (self w)) as [d|] eqn:Hd; [|by left].
    right. exists d. split; [done|]. by apply Hlast.
  - rewrite available_destinations_eq, Hcat. cbn zeta.
    by destruct (eligible_is_Some c _ Hlast) as [ys ->].
Qed.

Lemma last_destination_in_catalog_witness :
  let w := (calls [8; 5] (fresh_world builtin_destinations)).2 in
  catalog w = builtin_destinations ∧
  (last_destination (self w) = None ∨
   ∃ d, last_destination (self w) = Some d ∧ d ∈ builtin_destinations) ∧
  (available_destinations w).1 ≠ Raise ValueError.
Proof.
  apply (last_destination_in_catalog builtin_destinations).
  apply calls_reachable, reachable_fresh_world.
Defined.

(** ** Truthiness of the guard *)

(** C10: in every world whose [last_destination] is the empty string and
    whose catalog has more than one entry, nothing is removed: the list
    handed to [random.choice] is the full catalog, and the values the
    call can return are exactly the entries of the catalog, the empty
    string among them when it is one. *)
Theorem empty_string_is_not_excluded (w : world) :
  last_destination (self w) = Some "" → 1 < length (catalog w) →
  (∃ l w1, available_destinations w = (Ret l, w1) ∧ list_at l w1 = catalog w) ∧
  ∀ d, d ∈ catalog w ↔ ∃ r, (get_random_destination r w).1 = Ret d.
Proof.
  intros Hlast Hlen.
  assert (eligible (catalog w) (last_destination (self w)) = Some (catalog w))
    as Hel by (apply eligible_guard_false; by rewrite Hlast).
  split.
  - rewrite available_destinations_eq, Hel. cbn zeta.
    eexists _, _. split; [done|]. apply list_at_set_list_eq.
  - intros d. split.
    + intros Hin. destruct (catalog w) as [|x xs] eqn:Hcat; [simpl in Hlen; lia|].
      destruct (nth_mod_any d x xs Hin) as [r Hr]. exists r.
      rewrite get_random_destination_eq, Hcat, Hel. simpl. by f_equal.
    + intros [r Hr]. by apply (get_random_destination_elem r).
Qed.

(** An immediate repeat of the empty string. *)
Lemma empty_string_is_not_excluded_witness :
  let w := (get_random_destination 0 (fresh_world [""; "Paris, France"])).2 in
  (get_random_destination 0 (fresh_world [""; "Paris, France"])).1 = Ret "" ∧
  ∃ r, (get_random_destination r w).1 = Ret "".
Proof.
  split; [reflexivity|].
  apply (empty_string_is_not_excluded
           (get_random_destination 0 (fresh_world [""; "Paris, France"])).2).
  - reflexivity.
  - vm_compute. lia.
  - vm_compute. left.
Defined.

(** ** The positions drawn from *)

(** When the last pick is removed from a catalog without duplicates, each
    remaining destination occupies exactly one position of the list
    handed to [random.choice], and there is one position less than in
    the catalog.  How often each position is drawn is up to the
    generator of [random], which is not part of this development. *)
Lemma eligible_positions (c : list string) (s : string) (ys : list string) :
  NoDup c → remove_first s c = Some ys →
  NoDup ys ∧ length c = S (length ys) ∧ ∀ d, d ∈ ys ↔ d ∈ c ∧ d ≠ s.
Proof.
  intros Hnd Hrm.
  destruct (remove_first_NoDup s c ys Hnd Hrm) as [Hys _].
  split; [|split].
  - rewrite Hys. by apply NoDup_filter.
  - by apply (remove_first_length s).
  - intros d. rewrite Hys, list_elem_of_filter. tauto.
Qed.

(** * Further properties of the picker *)

(** ** Outcome of a call on any instance *)

Section outcomes.
Implicit Types (w : world) (c xs : list string) (last : option string).

Lemma eligible_None c last :
  eligible c last = None ↔
  ∃ s, last = Some s ∧ s ≠ "" ∧ 1 < length c ∧ s ∉ c.
Proof.
  unfold eligible. destruct last as [s|]; [|split; [done|by intros (s & ? & _)]].
  rewrite truthy_Some.
  destruct (bool_decide_reflect (s ≠ "")) as [Hs|Hs];
    destruct (Nat.ltb_spec 1 (length c)) as [Hlen|Hlen]; simpl.
  - rewrite remove_first_None. split; [by exists s|].
    by intros (s' & [= <-] & _ & _ & Hnin).
  - split; [done|]. intros (s' & [= <-] & _ & Hlt & _). lia.
  - split; [done|]. by intros (s' & [= <-] & Hne & _).
  - split; [done|]. by intros (s' & [= <-] & Hne & _).
Qed.

Lemma eligible_Some_nil c last :
  eligible c last = Some [] ↔ c = [].
Proof.
  split; [|intros ->; apply eligible_of_nil].
  intros Hel. destruct c as [|x c']; [done|].
  by apply eligible_nonempty in Hel.
Qed.
End outcomes.

(** X1: on any instance, constructed or not, a call raises [ValueError]
    exactly when [last_destination] is a non-empty string that is not in
    the catalog and the catalog has more than one entry; it raises
    [IndexError] exactly when the catalog is empty; in every other case
    it returns. *)
Theorem get_random_destination_outcome (r : nat) (w : world) :
  ((get_random_destination r w).1 = Raise ValueError ↔
     ∃ s, last_destination (self w) = Some s ∧ s ≠ "" ∧
          1 < length (catalog w) ∧ s ∉ catalog w) ∧
  ((get_random_destination r w).1 = Raise IndexError ↔ catalog w = []) ∧
  ((∃ d, (get_random_destination r w).1 = Ret d) ↔
     catalog w ≠ [] ∧
     ¬ ∃ s, last_destination (self w) = Some s ∧ s ≠ "" ∧
            1 < length (catalog w) ∧ s ∉ catalog w).
Proof.
  rewrite <- eligible_None, <- (eligible_Some_nil _ (last_destination (self w))).
  rewrite get_random_destination_eq. cbn zeta.
  destruct (eligible _ _) as [[|x xs]|]; simpl.
  - split; [done|]. split; [done|]. split; [by intros [d ?]|by intros [? _]].
  - split; [done|]. split; [done|]. split; [done|]. intros _. by eexists.
  - split; [done|]. split; [done|]. split; [by intros [d ?]|by intros [_ ?]].
Qed.

(** ** The values a call can return *)

Section results.
Implicit Types (w : world) (c xs ys : list string) (last : option string).

Lemma nth_mod_lookup (r : nat) (x : string) xs :
  (x :: xs) !! (r mod length (x :: xs))
  = Some (nth (r mod length (x :: xs)) (x :: xs) x).
Proof.
  assert (r mod length (x :: xs) < length (x :: xs)) as Hlt.
  { apply Nat.mod_upper_bound. simpl; lia. }
  destruct (lookup_lt_is_Some_2 _ _ Hlt) as [d Hd].
  rewrite Hd. f_equal. symmetry. by apply nth_lookup_Some.
Qed.

(** A call returns [d] on some draw exactly when [d] is in the list
    [eligible]. *)
Lemma call_results w ys d :
  eligible (catalog w) (last_destination (self w)) = Some ys →
  (∃ r, (get_random_destination r w).1 = Ret d) ↔ d ∈ ys.
Proof.
  intros Hel. split.
  - intros [r Hr]. rewrite get_random_destination_eq, Hel in Hr.
    destruct ys as [|x xs]; [done|]. simpl in Hr. injection Hr as <-.
    apply nth_mod_elem.
  - intros Hin. destruct ys as [|x xs]; [by apply elem_of_nil in Hin|].
    destruct (nth_mod_any d x xs Hin) as [r Hr]. exists r.
    rewrite get_random_destination_eq, Hel. simpl. by f_equal.
Qed.

Lemma reachable_eligible_truthy c w :
  NoDup c → reachable c w →
  eligible c (last_destination (self w))
  = Some (eligible_truthy c (last_destination (self w))).
Proof.
  intros Hnd Hreach. destruct (reachable_inv c w Hreach) as [_ Hlast].
  unfold eligible_truthy.
  destruct (last_destination (self w)) as [s|] eqn:Hs; [|done].
  destruct (truthy (Some s) && (1 <? length c)%nat) eqn:Hg.
  - apply eligible_guard_true; [done| |done]. by apply Hlast.
  - by apply eligible_guard_false.
Qed.

Lemma elem_of_eligible_truthy c last d :
  d ∈ eligible_truthy c last ↔
  d ∈ c ∧ ¬ (last = Some d ∧ d ≠ "" ∧ 1 < length c).
Proof.
  unfold eligible_truthy. destruct last as [s|].
  - rewrite truthy_Some.
    destruct (bool_decide_reflect (s ≠ "")) as [Hs|Hs];
      destruct (Nat.ltb_spec 1 (length c)) as [Hlen|Hlen]; simpl.
    + rewrite list_elem_of_filter. split.
      * intros [Hne Hin]. split; [done|]. intros ([= ->] & _). by apply Hne.
      * intros [Hin Hnot]. split; [|done]. intros ->. by apply Hnot.
    + split; [|by intros [? _]]. intros Hin. split; [done|].
      intros (_ & _ & Hlt). lia.
    + split; [|by intros [? _]]. intros Hin. split; [done|].
      intros ([= ->] & Hne & _). by apply Hs.
    + split; [|by intros [? _]]. intros Hin. split; [done|].
      intros (_ & _ & Hlt). lia.
  - split; [|by intros [? _]]. intros Hin. split; [done|]. by intros [? _].
Qed.
End results.

(** X2: on an instance constructed over a catalog without duplicates, the
    values a call can return, over all draws, are exactly the entries of
    the catalog, except the last pick when it is a non-empty string and
    the catalog has more than one entry.  On a new instance every entry
    can be returned. *)
Theorem possible_results (c : list string) (w : world) (d : string) :
  NoDup c → reachable c w →
  (∃ r, (get_random_destination r w).1 = Ret d) ↔
  d ∈ c ∧ ¬ (last_destination (self w) = Some d ∧ d ≠ "" ∧ 1 < length c).
Proof.
  intros Hnd Hreach.
  rewrite <- elem_of_eligible_truthy.
  apply call_results.
  rewrite (reachable_catalog c w Hreach).
  by apply reachable_eligible_truthy.
Qed.

Lemma possible_results_witness :
  (∃ r, (get_random_destination r
           (get_random_destination 4 (fresh_world builtin_destinations)).2).1
        = Ret "Tokyo, Japan") ∧
  ¬ (∃ r, (get_random_destination r
             (get_random_destination 4 (fresh_world builtin_destinations)).2).1
          = Ret "Sydney, Australia").
Proof.
  assert (NoDup builtin_destinations) as Hnd.
  { apply (bool_decide_unpack _). vm_compute. exact I. }
  assert (reachable builtin_destinations
            (get_random_destination 4 (fresh_world builtin_destinations)).2)
    as Hreach.
  { apply reach_call, reachable_fresh_world. }
  split.
  - apply (possible_results builtin_destinations _ _ Hnd Hreach). split.
    + apply (bool_decide_unpack _). vm_compute. exact I.
    + intros (Hlast & _). vm_compute in Hlast. discriminate Hlast.
  - intros Hex.
    apply (possible_results builtin_destinations _ _ Hnd Hreach) in Hex
      as [_ Hnot].
    apply Hnot. split; [reflexivity|]. split; [discriminate|]. simpl. lia.
Defined.

(** ** Small catalogs *)

(** X3: over a catalog of one entry, every call returns that entry,
    whatever the draws and however many calls are made (the entry may
    even be the empty string). *)
Theorem single_entry_catalog
    (x : string) (h : gmap loc (list string)) (w : world) (rs : list nat) :
  init [x] h = Ret w →
  (calls rs w).1 = Ret (replicate (length rs) x).
Proof.
  intros Hinit.
  assert (reachable [x] w) as Hreach by by eapply reach_init.
  destruct (calls_ret [x] rs w) as (ds & -> & Hlen & Hall); [done..|].
  f_equal. symmetry. apply replicate_as_Forall_2; [done|].
  eapply Forall_impl; [done|]. intros d Hd.
  by apply list_elem_of_singleton in Hd.
Qed.

Lemma single_entry_catalog_witness :
  (calls [5; 0; 7] (fresh_world ["Paris, France"])).1
  = Ret ["Paris, France"; "Paris, France"; "Paris, France"].
Proof.
  apply (single_entry_catalog "Paris, France" ∅ _ [5; 0; 7]).
  reflexivity.
Defined.

(** X4: over a catalog of two different non-empty entries, once a first
    pick is made the draw no longer matters: every call returns the entry
    that the previous call did not. *)
Theorem two_entry_catalog_alternates (c : list string) (w : world) :
  NoDup c → "" ∉ c → length c = 2 → reachable c w →
  last_destination (self w) ≠ None →
  ∃ d, d ∈ c ∧ last_destination (self w) ≠ Some d ∧
       ∀ r, (get_random_destination r w).1 = Ret d.
Proof.
  intros Hnd Hempty Hlen Hreach Hlast.
  destruct (reachable_inv c w Hreach) as [_ Hin].
  pose proof (reachable_catalog c w Hreach) as Hcat.
  destruct (last_destination (self w)) as [s|] eqn:Hs; [clear Hlast|done].
  specialize (Hin s Hs).
  assert (truthy (Some s) && (1 <? length c)%nat = true) as Hg.
  { apply andb_true_iff. split.
    - rewrite truthy_Some. apply bool_decide_eq_true_2. by intros ->.
    - apply Nat.ltb_lt. lia. }
  destruct (remove_first_is_Some s c Hin) as [ys Hys].
  pose proof (remove_first_length s c ys Hys) as Hlen'.
  destruct (remove_first_NoDup s c ys Hnd Hys) as [_ Hnin].
  pose proof (remove_first_subseteq s c ys Hys) as Hsub.
  destruct ys as [|d [|d' ys']]; simpl in Hlen'; [lia| |lia].
  exists d. split; [apply Hsub; by left|].
  split; [intros [= ->]; apply Hnin; by left|].
  intros r. rewrite get_random_destination_eq, Hcat, Hs.
  unfold eligible. rewrite Hg, Hys. cbn zeta.
  by rewrite (Nat.mod_1_r r : r mod length [d] = 0).
Qed.

Lemma two_entry_catalog_alternates_witness :
  ∃ d, d ∈ ["Paris, France"; "Tokyo, Japan"] ∧
       last_destination
         (self (get_random_destination 0
                  (fresh_world ["Paris, France"; "Tokyo, Japan"])).2) ≠ Some d ∧
       ∀ r, (get_random_destination r
               (get_random_destination 0
                  (fresh_world ["Paris, France"; "Tokyo, Japan"])).2).1 = Ret d.
Proof.
  apply (two_entry_catalog_alternates ["Paris, France"; "Tokyo, Japan"]).
  - apply (bool_decide_unpack _). vm_compute. exact I.
  - apply (bool_decide_unpack _). vm_compute. exact I.
  - reflexivity.
  - apply reach_call, reachable_fresh_world.
  - discriminate.
Defined.

(** ** Which position of the catalog a draw selects *)

Section positions.
Implicit Types (w : world) (c xs ys : list string) (x s : string) (i j : nat).

Lemma skip_index_0 i : skip_index 0 i = S i.
Proof. done. Qed.

Lemma skip_index_S_0 j : skip_index (S j) 0 = 0.
Proof. done. Qed.

Lemma skip_index_S_S j i : skip_index (S j) (S i) = S (skip_index j i).
Proof.
  unfold skip_index.
  destruct (Nat.ltb_spec (S i) (S j)), (Nat.ltb_spec i j); (done || lia).
Qed.

(** Removing the entry at position [j] shifts the later entries down by
    one position. *)
Lemma remove_first_lookup x xs ys j i :
  NoDup xs → xs !! j = Some x → remove_first x xs = Some ys →
  ys !! i = xs !! skip_index j i.
Proof.
  intros Hnd. revert ys j i.
  induction Hnd as [|y xs Hy Hnd IH]; intros ys j i Hj; [done|]. simpl.
  case_decide as Hxy.
  - subst y. intros [= ->]. destruct j as [|j].
    + by rewrite skip_index_0.
    + simpl in Hj. by apply list_elem_of_lookup_2 in Hj.
  - destruct j as [|j]; [by injection Hj|]. simpl in Hj.
    destruct (remove_first x xs) as [ys'|] eqn:Hrm; [|done].
    intros [= <-]. destruct i as [|i].
    + by rewrite skip_index_S_0.
    + rewrite skip_index_S_S. simpl. by apply IH.
Qed.

Lemma remove_first_Permutation x xs ys :
  remove_first x xs = Some ys → xs ≡ₚ x :: ys.
Proof.
  revert ys. induction xs as [|y xs IH]; intros ys; simpl; [done|].
  case_decide as Hxy; [by intros [= ->]; subst|].
  destruct (remove_first x xs) as [ys'|]; [|done].
  intros [= <-]. rewrite (IH ys' eq_refl). apply Permutation_swap.
Qed.

Lemma remove_first_sublist x xs ys :
  remove_first x xs = Some ys → ys `sublist_of` xs.
Proof.
  revert ys. induction xs as [|y xs IH]; intros ys; simpl; [done|].
  case_decide as Hxy; [intros [= ->]; by apply sublist_cons|].
  destruct (remove_first x xs) as [ys'|]; [|done].
  intros [= <-]. by apply sublist_skip, IH.
Qed.

(** On a reachable instance over a catalog without the empty string, a
    last pick switches the removal on as soon as there are two entries. *)
Lemma reachable_guard_true c w s :
  "" ∉ c → 2 ≤ length c → reachable c w →
  last_destination (self w) = Some s →
  s ∈ c ∧ truthy (Some s) && (1 <? length c)%nat = true.
Proof.
  intros Hempty Hlen Hreach Hs.
  destruct (reachable_inv c w Hreach) as [_ Hin].
  specialize (Hin s Hs). split; [done|].
  apply andb_true_iff. split.
  - rewrite truthy_Some. apply bool_decide_eq_true_2. by intros ->.
  - apply Nat.ltb_lt. lia.
Qed.
End positions.

(** X5: on an instance constructed over a catalog of at least two entries,
    without duplicates and without the empty string, the draw [r] selects
    a position of the catalog: position [r mod k] on a new instance, and,
    once the last pick sits at position [j], the position that comes
    [r mod (k-1)]-th when [j] is skipped. *)
Theorem pick_by_position (c : list string) (w : world) (r : nat) :
  NoDup c → "" ∉ c → 2 ≤ length c → reachable c w →
  ∃ d, (get_random_destination r w).1 = Ret d ∧
    (last_destination (self w) = None → c !! (r mod length c) = Some d) ∧
    (∀ s j, last_destination (self w) = Some s → c !! j = Some s →
            c !! skip_index j (r mod (length c - 1)) = Some d).
Proof.
  intros Hnd Hempty Hlen Hreach.
  assert (c ≠ []) as Hc by (intros ->; simpl in Hlen; lia).
  destruct (reachable_call_ret c w r Hc Hreach) as (x & xs & Hel & Hd).
  eexists. split; [done|]. split.
  - intros Hnone. rewrite Hnone in Hel. injection Hel as ->.
    apply nth_mod_lookup.
  - intros s j Hs Hj. rewrite Hs in Hel.
    destruct (reachable_guard_true c w s Hempty Hlen Hreach Hs) as [_ Hg].
    unfold eligible in Hel. rewrite Hg in Hel.
    rewrite <- (remove_first_lookup s c (x :: xs) j _ Hnd Hj Hel).
    rewrite (remove_first_length s c _ Hel).
    replace (S (length (x :: xs)) - 1) with (length (x :: xs)) by lia.
    apply nth_mod_lookup.
Qed.

Lemma pick_by_position_witness :
  ∃ d, (get_random_destination 12
          (get_random_destination 3 (fresh_world builtin_destinations)).2).1
       = Ret d ∧
       builtin_destinations !! skip_index 3 (12 mod 9) = Some d.
Proof.
  destruct (pick_by_position builtin_destinations
              (get_random_destination 3 (fresh_world builtin_destinations)).2
              12) as (d & Hd & _ & Hpos).
  - apply (bool_decide_unpack _). vm_compute. exact I.
  - apply (bool_decide_unpack _). vm_compute. exact I.
  - simpl. lia.
  - apply reach_call, reachable_fresh_world.
  - exists d. split; [exact Hd|].
    apply (Hpos "Tokyo, Japan" 3); reflexivity.
Defined.

(** X6: when the removal of line 59 takes place on a constructed
    instance, it takes exactly one occurrence of the last pick out of the
    copy and keeps the other entries in catalog order, duplicates
    included: the catalog is a rearrangement of the last pick followed by
    the list handed to [random.choice], and that list is a sublist of the
    catalog. *)
Theorem removal_takes_one_occurrence (c : list string) (w : world) (s : string) :
  reachable c w → last_destination (self w) = Some s →
  s ≠ "" → 1 < length c →
  ∃ l w1, available_destinations w = (Ret l, w1) ∧
          c ≡ₚ s :: list_at l w1 ∧
          list_at l w1 `sublist_of` c ∧
          length (list_at l w1) = length c - 1.
Proof.
  intros Hreach Hs Hne Hlen.
  destruct (reachable_inv c w Hreach) as [_ Hin]. specialize (Hin s Hs).
  pose proof (reachable_catalog c w Hreach) as Hcat.
  destruct (remove_first_is_Some s c Hin) as [ys Hys].
  assert (eligible c (Some s) = Some ys) as Hel.
  { unfold eligible. rewrite truthy_Some, bool_decide_eq_true_2; [|done].
    apply Nat.ltb_lt in Hlen. by rewrite Hlen. }
  rewrite available_destinations_eq, Hcat, Hs, Hel. cbn zeta.
  eexists _, _. split; [done|]. rewrite list_at_set_list_eq.
  split; [by apply remove_first_Permutation|].
  split; [by apply (remove_first_sublist s)|].
  rewrite (remove_first_length s c ys Hys). lia.
Qed.

Lemma removal_takes_one_occurrence_witness :
  let c := ["Paris, France"; "Tokyo, Japan"; "Paris, France"] in
  let w := (get_random_destination 0 (fresh_world c)).2 in
  ∃ l w1, available_destinations w = (Ret l, w1) ∧
          c ≡ₚ "Paris, France" :: list_at l w1 ∧
          list_at l w1 `sublist_of` c ∧
          length (list_at l w1) = length c - 1.
Proof.
  apply (removal_takes_one_occurrence
           ["Paris, France"; "Tokyo, Japan"; "Paris, France"]).
  - apply reach_call, reachable_fresh_world.
  - reflexivity.
  - discriminate.
  - simpl. lia.
Defined.

(** ** Whole sequences of calls *)

Section traces.
Implicit Types (w : world) (c : list string) (rs : list nat).

Lemma call_differs_from_last c w r d :
  NoDup c → "" ∉ c → 2 ≤ length c → reachable c w →
  (get_random_destination r w).1 = Ret d →
  last_destination (self w) ≠ Some d.
Proof.
  intros Hnd Hempty Hlen Hreach Hd Hs.
  destruct (reachable_guard_true c w d Hempty Hlen Hreach Hs) as [Hin Hg].
  assert (d ∈ eligible_truthy c (last_destination (self w))) as Hel.
  { eapply call_results; [|by exists r].
    rewrite (reachable_catalog c w Hreach).
    by apply reachable_eligible_truthy. }
  apply elem_of_eligible_truthy in Hel as [_ Hnot]. apply Hnot.
  split; [done|]. split; [by intros ->|lia].
Qed.

Lemma calls_adjacent_distinct c rs w :
  NoDup c → "" ∉ c → 2 ≤ length c → reachable c w →
  ∃ ds, (calls rs w).1 = Ret ds ∧ length ds = length rs ∧
        adjacent_distinct ds ∧
        ∀ d, last_destination (self w) = Some d → head ds ≠ Some d.
Proof.
  intros Hnd Hempty Hlen.
  assert (c ≠ []) as Hc by (intros ->; simpl in Hlen; lia).
  revert w. induction rs as [|r rs IH]; intros w Hreach.
  - exists []. by repeat split.
  - rewrite calls_cons.
    destruct (reachable_call_ret c w r Hc Hreach) as (x & xs & _ & Hd).
    pose proof (call_differs_from_last c w r _ Hnd Hempty Hlen Hreach Hd)
      as Hne.
    pose proof (get_random_destination_last r w) as Hl. rewrite Hd in Hl.
    pose proof (reach_call c w r Hreach) as Hstep.
    destruct (get_random_destination r w) as [o w']; simpl in *. subst o.
    destruct (IH w' Hstep) as (ds & Hds & Hlen' & Hadj & Hhead).
    destruct (calls rs w') as [o w'']; simpl in *. subst o.
    eexists. split; [done|]. split; [by simpl; f_equal|].
    split; [split; [by apply Hhead|done]|].
    intros d Hlast [= <-]. by apply Hne.
Qed.

Lemma calls_lookup rs w l (xs : list string) :
  store w !! l = Some xs → store (calls rs w).2 !! l = Some xs.
Proof.
  revert w. induction rs as [|r rs IH]; intros w Hl; [done|].
  rewrite calls_cons.
  pose proof (get_random_destination_lookup r w l xs Hl) as Hl'.
  destruct (get_random_destination r w) as [[d|e] w']; simpl in Hl'; [|done].
  specialize (IH w' Hl').
  by destruct (calls rs w') as [[ds|e] w''].
Qed.

Lemma calls_destinations rs w :
  destinations (self (calls rs w).2) = destinations (self w).
Proof.
  revert w. induction rs as [|r rs IH]; intros w; [done|].
  rewrite calls_cons.
  pose proof (get_random_destination_destinations r w) as Hd.
  destruct (get_random_destination r w) as [[d|e] w']; simpl in Hd; [|done].
  specialize (IH w'). rewrite <- Hd.
  by destruct (calls rs w') as [[ds|e] w''].
Qed.
End traces.

(** X7: from a new instance over a catalog of at least two entries,
    without duplicates and without the empty string, every sequence of
    calls returns one value per call, and nowhere in the sequence of
    returned values are two neighbours equal. *)
Theorem calls_never_repeat_in_a_row
    (c : list string) (h : gmap loc (list string)) (w : world) (rs : list nat) :
  NoDup c → "" ∉ c → 2 ≤ length c → init c h = Ret w →
  ∃ ds, (calls rs w).1 = Ret ds ∧ length ds = length rs ∧
        adjacent_distinct ds.
Proof.
  intros Hnd Hempty Hlen Hinit.
  assert (reachable c w) as Hreach by by eapply reach_init.
  destruct (calls_adjacent_distinct c rs w Hnd Hempty Hlen Hreach)
    as (ds & Hds & Hlen' & Hadj & _).
  by exists ds.
Qed.

Lemma calls_never_repeat_in_a_row_witness :
  ∃ ds, (calls [0; 0; 0; 9; 18; 4]
           (fresh_world builtin_destinations)).1 = Ret ds ∧
        length ds = 6 ∧ adjacent_distinct ds.
Proof.
  apply (calls_never_repeat_in_a_row builtin_destinations ∅).
  - apply (bool_decide_unpack _). vm_compute. exact I.
  - apply (bool_decide_unpack _). vm_compute. exact I.
  - simpl. lia.
  - reflexivity.
Defined.

(** ** Several instances *)

(** X8: the list literal of [__init__] is evaluated at each construction,
    so instances do not share their catalog object: a second instance,
    constructed after any number of calls on the first, refers to a list
    object of its own, and no sequence of calls on the second changes the
    content of the first one's list. *)
Theorem instances_have_their_own_list
    (c1 c2 : list string) (h : gmap loc (list string)) (w1 w2 : world)
    (rs1 rs2 : list nat) :
  init c1 h = Ret w1 →
  init c2 (store (calls rs1 w1).2) = Ret w2 →
  destinations (self w2) ≠ destinations (self w1) ∧
  store (calls rs2 w2).2 !! destinations (self w1) = Some c1 ∧
  catalog (calls rs2 w2).2 = c2.
Proof.
  intros Hinit1 Hinit2.
  assert (reachable c1 w1) as Hreach1 by by eapply reach_init.
  assert (reachable c2 w2) as Hreach2 by by eapply reach_init.
  destruct (reachable_inv c1 w1 Hreach1) as [Hst1 _].
  pose proof (calls_lookup rs1 w1 _ _ Hst1) as Hst1'.
  unfold init in Hinit2. injection Hinit2 as <-. simpl.
  assert (fresh (dom (store (calls rs1 w1).2)) ≠ destinations (self w1))
    as Hne by by eapply fresh_store_ne.
  split; [done|]. split.
  - apply calls_lookup. simpl. by rewrite lookup_insert_ne.
  - by apply reachable_catalog, calls_reachable.
Qed.

Lemma instances_have_their_own_list_witness :
  let w1 := fresh_world builtin_destinations in
  let w2 := World (<[4%positive := ["Oslo, Norway"]]> (store (calls [1; 2] w1).2))
                  (Plugin 4%positive None) in
  destinations (self w2) ≠ destinations (self w1) ∧
  store (calls [0; 0] w2).2 !! destinations (self w1)
    = Some builtin_destinations ∧
  catalog (calls [0; 0] w2).2 = ["Oslo, Norway"].
Proof.
  apply (instances_have_their_own_list
           builtin_destinations ["Oslo, Norway"] ∅ _ _ [1; 2] [0; 0]).
  - reflexivity.
  - vm_compute. reflexivity.
Defined.

(** ** The catalog of the source *)

Lemma builtin_destinations_names :
  NoDup builtin_destinations ∧ ("" ∉ builtin_destinations) ∧
  length builtin_destinations = 10.
Proof.
  split; [apply (bool_decide_unpack _); vm_compute; exact I|].
  split; [apply (bool_decide_unpack _); vm_compute; exact I|done].
Qed.

(** On the instances [DestinationsPlugin()] constructs, two calls in a
    row never return the same value. *)
Lemma builtin_no_immediate_repeat : no_immediate_repeat builtin_destinations.
Proof.
  destruct builtin_destinations_names as (Hnd & Hempty & Hlen).
  intros w r1 r2 d1 d2 Hreach Hd1 Hd2 Heq. subst d2.
  pose proof (get_random_destination_last r1 w) as Hl. rewrite Hd1 in Hl.
  eapply (call_differs_from_last builtin_destinations _ r2 d1);
    [done|done|rewrite Hlen; lia|by apply reach_call|done|done].
Qed.

(** On the instances [DestinationsPlugin()] constructs, the list handed
    to [random.choice] is the eligible set of the design. *)
Lemma builtin_draws_from_eligible_spec :
  draws_from_eligible_spec builtin_destinations.
Proof.
  destruct builtin_destinations_names as (Hnd & Hempty & _).
  intros w Hreach.
  destruct (call_draws_from_eligible_truthy builtin_destinations w 0)
    as [(l & w1 & Hav & Hlist) _]; [done..|].
  exists l, w1. split; [done|]. intros d. rewrite Hlist.
  destruct (reachable_inv _ w Hreach) as [_ Hlast].
  by rewrite (eligible_truthy_spec _ _ Hempty Hlast).
Qed.
